(** * EventTarget: a listener registry with snapshot dispatch

    Shallow embedding of [src/script.js]: the class [EventTarget] with its
    private field [#listeners] (a JS [Map] from event name to a JS [Set] of
    callbacks) and its three methods, followed by the sample-usage driver.

    - The [Map] is a [gmap string (list handle)]: the code never iterates
      over the map, so the key order of a JS [Map] is not observable.
    - A [Set] of callbacks is a duplicate-free [list handle] kept in
      insertion order, which is the order in which a JS [Set] is spread by
      [[...callbacks]].
    - A callback is a function object; it is compared by identity, so it is
      modelled by a [handle] (an object identity) and a table [body] giving
      what the function does when called.  A callback body can log to the
      console and can call back into the same [EventTarget].
    - [dispatchEvent] may be re-entered from a callback, so it takes a
      [fuel] bounding the depth of nested [dispatchEvent] frames; running
      out of fuel is the JS engine running out of call stack. *)

From stdpp Require Import gmap strings list fin_maps.

Open Scope string_scope.
Open Scope list_scope.
Open Scope nat_scope.

(** ** Data model *)

(** Identity of a function object. *)
Definition handle := nat.

(** ** The JS [Set] of callbacks, in insertion order *)
Module CallbackSet.

(** [new Set()] *)
Definition new : list handle := [].

(** [set.has(cb)] *)
Definition has (cb : handle) (s : list handle) : bool := bool_decide (cb ∈ s).

(** [set.add(cb)]: an element already present keeps its position, a new
    one is appended. *)
Definition add (cb : handle) (s : list handle) : list handle :=
  if has cb s then s else s ++ [cb].

(** [set.delete(cb)] *)
Definition delete (cb : handle) (s : list handle) : list handle :=
  filter (λ x, x ≠ cb) s.

(** [set.size] *)
Definition size (s : list handle) : nat := length s.

(** [[...set]]: the array of the elements, in insertion order. *)
Definition spread (s : list handle) : list handle := s.

End CallbackSet.

(** ** The three methods *)

(** [addEventListener(eventName, callback)], lines 17-28.  The [Set] stored
    in the map is mutated in place by [callbacks.add]; on a functional map
    this is writing the updated set back under [eventName]. *)
Definition addEventListener (eventName : string) (callback : handle)
    (listeners : gmap string (list handle)) : gmap string (list handle) :=
  match listeners !! eventName with
  | None =>
      let callbacks := CallbackSet.new in
      let listeners1 := <[eventName := callbacks]> listeners in
      <[eventName := CallbackSet.add callback callbacks]> listeners1
  | Some callbacks =>
      <[eventName := CallbackSet.add callback callbacks]> listeners
  end.

(** [removeEventListener(eventName, callback)], lines 37-49. *)
Definition removeEventListener (eventName : string) (callback : handle)
    (listeners : gmap string (list handle)) : gmap string (list handle) :=
  match listeners !! eventName with
  | Some callbacks =>
      let callbacks1 := CallbackSet.delete callback callbacks in
      let listeners1 := <[eventName := callbacks1]> listeners in
      if CallbackSet.size callbacks1 =? 0
      then delete eventName listeners1
      else listeners1
  | None => listeners
  end.

(** What a callback body can do: log a line, or call a method of the
    [EventTarget] it is registered on. *)
Inductive action : Type :=
  | ActLog (msg : string)
  | ActAdd (eventName : string) (callback : handle)
  | ActRemove (eventName : string) (callback : handle)
  | ActDispatch (eventName : string).

(** What is observed of a run: console lines, and callback invocations each
    carrying what happened inside the call. *)
#[warnings="-register-all"] Inductive event : Type :=
  | Logged (msg : string)
  | Invoked (callback : handle) (inside : list event).

(** [None]: the call stack is exhausted. *)
Definition outcome : Type := option (gmap string (list handle) * list event).

(** [array.forEach(callback => { callback(); })] over the snapshot. *)
Fixpoint forEach (call : handle → gmap string (list handle) → outcome)
    (snapshot : list handle) (listeners : gmap string (list handle)) : outcome :=
  match snapshot with
  | [] => Some (listeners, [])
  | callback :: rest =>
      match call callback listeners with
      | None => None
      | Some (listeners1, inside) =>
          match forEach call rest listeners1 with
          | None => None
          | Some (listeners2, later) =>
              Some (listeners2, Invoked callback inside :: later)
          end
      end
  end.

(** The statements of a function body, run in order. *)
Fixpoint run (dispatch : string → gmap string (list handle) → outcome)
    (acts : list action) (listeners : gmap string (list handle)) : outcome :=
  match acts with
  | [] => Some (listeners, [])
  | ActLog msg :: rest =>
      match run dispatch rest listeners with
      | None => None
      | Some (listeners1, later) => Some (listeners1, Logged msg :: later)
      end
  | ActAdd eventName callback :: rest =>
      run dispatch rest (addEventListener eventName callback listeners)
  | ActRemove eventName callback :: rest =>
      run dispatch rest (removeEventListener eventName callback listeners)
  | ActDispatch eventName :: rest =>
      match dispatch eventName listeners with
      | None => None
      | Some (listeners1, during) =>
          match run dispatch rest listeners1 with
          | None => None
          | Some (listeners2, later) => Some (listeners2, during ++ later)
          end
      end
  end.

(** [dispatchEvent(eventName)], lines 57-68. *)
Fixpoint dispatchEvent (body : handle → list action) (fuel : nat)
    (eventName : string) (listeners : gmap string (list handle)) : outcome :=
  match fuel with
  | 0 => None
  | S fuel' =>
      match listeners !! eventName with
      | Some callbacks =>
          forEach (λ callback, run (dispatchEvent body fuel') (body callback))
                  (CallbackSet.spread callbacks) listeners
      | None => Some (listeners, [])
      end
  end.

(** ** Observations on a registry and on a trace *)

(** The callbacks registered for an event name, in [Set] order; none when the
    map has no entry. *)
Definition handles (listeners : gmap string (list handle)) (eventName : string)
    : list handle :=
  default [] (listeners !! eventName).

(** The callbacks called by the run itself, in call order, leaving out what
    the called functions did in turn. *)
Definition direct_calls (tr : list event) : list handle :=
  omap (λ e, match e with Invoked h _ => Some h | Logged _ => None end) tr.

(** Every callback invocation of the run, nested ones included, in time
    order. *)
Fixpoint invocations_of (e : event) : list handle :=
  match e with
  | Logged _ => []
  | Invoked h inside => h :: flat_map invocations_of inside
  end.

Definition invocations (tr : list event) : list handle :=
  flat_map invocations_of tr.

(** The console lines of the run, in time order. *)
Fixpoint console_of (e : event) : list string :=
  match e with
  | Logged msg => [msg]
  | Invoked _ inside => flat_map console_of inside
  end.

Definition console (tr : list event) : list string :=
  flat_map console_of tr.

(** How many times [h] occurs in a list of calls. *)
Definition times (h : handle) (calls : list handle) : nat :=
  length (filter (λ x, x = h) calls).

(** ** Invariants of the registry *)

Definition no_empty_entry (listeners : gmap string (list handle)) : Prop :=
  ∀ eventName callbacks,
    listeners !! eventName = Some callbacks → callbacks ≠ [].

Definition no_duplicates (listeners : gmap string (list handle)) : Prop :=
  ∀ eventName callbacks,
    listeners !! eventName = Some callbacks → NoDup callbacks.

(** No callback calls [dispatchEvent]. *)
Definition dispatch_free (body : handle → list action) : Prop :=
  ∀ h eventName, ActDispatch eventName ∉ body h.

(** ** Sequences of top-level registrations *)

Inductive registration : Type :=
  | Register (eventName : string) (callback : handle)
  | Unregister (eventName : string) (callback : handle).

#[global] Instance registration_eq_dec : EqDecision registration.
Proof. solve_decision. Defined.

Definition apply_registration (r : registration)
    (listeners : gmap string (list handle)) : gmap string (list handle) :=
  match r with
  | Register eventName callback => addEventListener eventName callback listeners
  | Unregister eventName callback => removeEventListener eventName callback listeners
  end.

Definition apply_all (ops : list registration)
    (listeners : gmap string (list handle)) : gmap string (list handle) :=
  foldl (λ m r, apply_registration r m) listeners ops.

(** The callbacks that [ops] registers for [eventName], one per call of
    [addEventListener], in call order. *)
Definition registrations_for (eventName : string) (ops : list registration)
    : list handle :=
  omap (λ r, match r with
             | Register E h => if decide (E = eventName) then Some h else None
             | Unregister _ _ => None
             end) ops.

(** A list with every element kept at its first occurrence only. *)
Fixpoint first_occurrences (l : list handle) : list handle :=
  match l with
  | [] => []
  | x :: rest => x :: filter (λ y, y ≠ x) (first_occurrences rest)
  end.

(** The order in which each callback was first registered for [eventName],
    as a reader of the history would list it. *)
Definition first_registration_order (eventName : string)
    (ops : list registration) : list handle :=
  first_occurrences (registrations_for eventName ops).

(** The registrations for [eventName] that stand at the end of [ops]: those
    of a callback that is not removed from [eventName] afterwards. *)
Fixpoint standing_registrations (eventName : string) (ops : list registration)
    : list handle :=
  match ops with
  | [] => []
  | Register E h :: rest =>
      if decide (E = eventName ∧ Unregister eventName h ∉ rest)
      then h :: standing_registrations eventName rest
      else standing_registrations eventName rest
  | Unregister _ _ :: rest => standing_registrations eventName rest
  end.

(** The order in which each callback was first registered for [eventName]
    since it was last removed from it. *)
Definition standing_registration_order (eventName : string)
    (ops : list registration) : list handle :=
  first_occurrences (standing_registrations eventName ops).

(** "[dispatchEvent] calls the registered callbacks in the order of their
    first registration", for the registry built by [ops]. *)
Definition calls_in_first_registration_order (body : handle → list action)
    (fuel : nat) (eventName : string) (ops : list registration) : Prop :=
  ∀ m' tr,
    dispatchEvent body fuel eventName (apply_all ops ∅) = Some (m', tr) →
    direct_calls tr =
      filter (λ h, h ∈ handles (apply_all ops ∅) eventName)
             (first_registration_order eventName ops).

(** ** The sample usage, lines 73-91 *)
Module Sample.

(** The three function objects of the script. *)
Definition logHello : handle := 0.
Definition logWorld : handle := 1.
Definition worldAgain : handle := 2.

Definition body (h : handle) : list action :=
  match h with
  | 0 => [ActLog "hello"]
  | 1 => [ActLog "world"]
  | 2 => [ActLog "world again!"]
  | _ => []
  end.

Definition heading1 : string := "--- Initial Registration and Dispatch ---".
Definition heading2 : string :=
  String (Ascii.ascii_of_nat 10) "--- Removing Listener and Re-dispatching ---".

(** Lines 79-82. *)
Definition registered : gmap string (list handle) :=
  addEventListener "hello" logHello
    (addEventListener "world" worldAgain
      (addEventListener "world" logWorld
        (addEventListener "hello" logHello ∅))).

(** Line 88. *)
Definition removed : gmap string (list handle) :=
  removeEventListener "hello" logHello registered.

(** The whole script, on a fresh [EventTarget]. *)
Definition script : list action :=
  [ ActLog heading1;
    ActAdd "hello" logHello;
    ActAdd "world" logWorld;
    ActAdd "world" worldAgain;
    ActAdd "hello" logHello;
    ActDispatch "hello";
    ActDispatch "world";
    ActLog heading2;
    ActRemove "hello" logHello;
    ActDispatch "hello";
    ActDispatch "world" ].

Definition main (fuel : nat) : outcome :=
  run (dispatchEvent body fuel) script ∅.

End Sample.

(** ** A listener that registers and removes listeners while dispatched *)
Module Reentrant.

Definition mutator : handle := 10.
Definition late : handle := 11.
Definition victim : handle := 12.

(** [mutator] registers [late] and removes [victim], both for the event
    being dispatched. *)
Definition body (h : handle) : list action :=
  match h with
  | 10 => [ActAdd "e" late; ActRemove "e" victim]
  | 11 => [ActLog "late"]
  | 12 => [ActLog "victim"]
  | _ => []
  end.

Definition before : gmap string (list handle) :=
  addEventListener "e" victim (addEventListener "e" mutator ∅).

End Reentrant.

(** ** Callbacks that only write to the console *)

(** Every statement of every callback is a [console.log]. *)
Definition log_only (body : handle → list action) : Prop :=
  ∀ h a, a ∈ body h → ∃ msg, a = ActLog msg.

(** The lines that the [console.log] statements of a body print. *)
Definition lines_of (acts : list action) : list string :=
  omap (λ a, match a with ActLog msg => Some msg | _ => None end) acts.

(** ** What the calls of a dispatch do *)

(** What the statements of a body that does not dispatch do to the
    registry: the registrations and removals, in order. *)
Fixpoint effect (acts : list action) (listeners : gmap string (list handle))
    : gmap string (list handle) :=
  match acts with
  | [] => listeners
  | ActAdd eventName callback :: rest =>
      effect rest (addEventListener eventName callback listeners)
  | ActRemove eventName callback :: rest =>
      effect rest (removeEventListener eventName callback listeners)
  | ActLog _ :: rest => effect rest listeners
  | ActDispatch _ :: rest => effect rest listeners
  end.

(** The registry after the bodies of the callbacks of [snapshot] have run
    one after the other, each on the registry left by the one before. *)
Definition effects_in_turn (body : handle → list action)
    (snapshot : list handle) (listeners : gmap string (list handle))
    : gmap string (list handle) :=
  foldl (λ m h, effect (body h) m) listeners snapshot.

(** The trace of calling the callbacks of [snapshot] one after the other
    when no body dispatches: one invocation per callback, holding the lines
    its body prints. *)
Definition trace_of_calls (body : handle → list action)
    (snapshot : list handle) : list event :=
  (λ h, Invoked h (Logged <$> lines_of (body h))) <$> snapshot.


(** ** A listener that removes itself when called *)
Module Once.

Definition once : handle := 20.
Definition stay : handle := 21.

Definition body (h : handle) : list action :=
  match h with
  | 20 => [ActLog "once"; ActRemove "e" once]
  | 21 => [ActLog "stay"]
  | _ => []
  end.

Definition before : gmap string (list handle) :=
  addEventListener "e" stay (addEventListener "e" once ∅).

End Once.

(** ** A listener that dispatches the event it listens to *)
Module Loop.

Definition again : handle := 30.

Definition body (h : handle) : list action :=
  match h with
  | 30 => [ActDispatch "e"; ActLog "unreached"]
  | _ => []
  end.

Definition before : gmap string (list handle) :=
  addEventListener "e" again ∅.

End Loop.

(** ** Facts about the callback set *)

Section callback_set.
Implicit Types (s : list handle) (h x : handle).

Lemma set_add_elem s h x :
  x ∈ CallbackSet.add h s ↔ x = h ∨ x ∈ s.
Proof.
  unfold CallbackSet.add, CallbackSet.has. case_bool_decide.
  - split; [auto | intros [-> | ?]; done].
  - rewrite elem_of_app, list_elem_of_singleton. tauto.
Qed.

Lemma set_add_present s h : h ∈ s → CallbackSet.add h s = s.
Proof.
  intros Hin. unfold CallbackSet.add, CallbackSet.has.
  by rewrite bool_decide_eq_true_2.
Qed.

Lemma set_add_fresh s h : h ∉ s → CallbackSet.add h s = s ++ [h].
Proof.
  intros Hin. unfold CallbackSet.add, CallbackSet.has.
  by rewrite bool_decide_eq_false_2.
Qed.


Lemma set_add_nonempty s h : CallbackSet.add h s ≠ [].
Proof.
  intros Heq. assert (Hin : h ∈ CallbackSet.add h s)
    by (apply set_add_elem; by left).
  rewrite Heq in Hin. by apply not_elem_of_nil in Hin.
Qed.

Lemma set_add_NoDup s h : NoDup s → NoDup (CallbackSet.add h s).
Proof.
  intros Hs. destruct (decide (h ∈ s)) as [Hin | Hin].
  - by rewrite set_add_present.
  - rewrite set_add_fresh by done. apply NoDup_app. split_and!; [done | | ].
    + intros x Hx ->%list_elem_of_singleton. done.
    + apply NoDup_singleton.
Qed.

Lemma set_delete_elem s h x :
  x ∈ CallbackSet.delete h s ↔ x ≠ h ∧ x ∈ s.
Proof. unfold CallbackSet.delete. by rewrite list_elem_of_filter. Qed.

Lemma set_delete_absent s h : h ∉ s → CallbackSet.delete h s = s.
Proof.
  intros Hin. unfold CallbackSet.delete.
  induction s as [| y s IH]; [done |].
  apply not_elem_of_cons in Hin as [Hne Hin].
  rewrite filter_cons_True by congruence. by rewrite IH.
Qed.

Lemma set_delete_twice s h :
  CallbackSet.delete h (CallbackSet.delete h s) = CallbackSet.delete h s.
Proof. apply set_delete_absent. rewrite set_delete_elem. tauto. Qed.

Lemma set_delete_NoDup s h : NoDup s → NoDup (CallbackSet.delete h s).
Proof. apply NoDup_filter. Qed.

Lemma set_delete_add_fresh s h :
  h ∉ s → CallbackSet.delete h (CallbackSet.add h s) = s.
Proof.
  intros Hin. rewrite set_add_fresh by done. unfold CallbackSet.delete.
  rewrite filter_app, filter_cons_False, filter_nil, app_nil_r by tauto.
  by apply set_delete_absent.
Qed.

Lemma set_size_zero s : (CallbackSet.size s =? 0) = bool_decide (s = []).
Proof. by destruct s. Qed.

Lemma times_NoDup s h :
  NoDup s → times h s = if bool_decide (h ∈ s) then 1 else 0.
Proof.
  unfold times. induction 1 as [| y s Hy Hs IH]; [done |].
  destruct (decide (y = h)) as [-> | Hne].
  - rewrite filter_cons_True by done. simpl. rewrite IH.
    rewrite (bool_decide_eq_false_2 (h ∈ s)) by done.
    rewrite bool_decide_eq_true_2; [done | by left].
  - rewrite filter_cons_False by done. rewrite IH.
    rewrite (bool_decide_ext (h ∈ y :: s) (h ∈ s)); [done |].
    rewrite elem_of_cons. split; [intros [-> | ?]; done | by right].
Qed.

End callback_set.

(** ** Facts about the two registration methods *)

Section methods.
Implicit Types (m : gmap string (list handle)) (E : string) (h : handle).

Lemma handles_Some m E s : m !! E = Some s → handles m E = s.
Proof. unfold handles. by intros ->. Qed.

Lemma handles_None m E : m !! E = None → handles m E = [].
Proof. unfold handles. by intros ->. Qed.

(** Both branches of [addEventListener] store the grown set. *)
Lemma addEventListener_insert m E h :
  addEventListener E h m = <[E := CallbackSet.add h (handles m E)]> m.
Proof.
  unfold addEventListener, handles.
  destruct (m !! E) as [s |]; simpl; [done |].
  by rewrite insert_insert_eq.
Qed.

Lemma lookup_addEventListener m E h :
  addEventListener E h m !! E = Some (CallbackSet.add h (handles m E)).
Proof. by rewrite addEventListener_insert, lookup_insert_eq. Qed.

Lemma lookup_addEventListener_ne m E E' h :
  E ≠ E' → addEventListener E h m !! E' = m !! E'.
Proof. intros. by rewrite addEventListener_insert, lookup_insert_ne. Qed.

Lemma handles_addEventListener m E h :
  handles (addEventListener E h m) E = CallbackSet.add h (handles m E).
Proof. apply handles_Some, lookup_addEventListener. Qed.

Lemma handles_addEventListener_ne m E E' h :
  E ≠ E' → handles (addEventListener E h m) E' = handles m E'.
Proof. intros. unfold handles. by rewrite lookup_addEventListener_ne. Qed.

(** [removeEventListener] on an entry: the entry goes when the shrunk set
    is empty, and holds the shrunk set otherwise. *)
Lemma removeEventListener_entry m E h s :
  m !! E = Some s →
  removeEventListener E h m =
    if bool_decide (CallbackSet.delete h s = [])
    then delete E m
    else <[E := CallbackSet.delete h s]> m.
Proof.
  intros Hs. unfold removeEventListener. rewrite Hs. simpl.
  rewrite set_size_zero. case_bool_decide; [| done].
  by rewrite delete_insert_eq.
Qed.

Lemma removeEventListener_no_entry m E h :
  m !! E = None → removeEventListener E h m = m.
Proof. intros Hs. unfold removeEventListener. by rewrite Hs. Qed.

Lemma lookup_removeEventListener_ne m E E' h :
  E ≠ E' → removeEventListener E h m !! E' = m !! E'.
Proof.
  intros Hne. destruct (m !! E) as [s |] eqn:Hs.
  - rewrite (removeEventListener_entry _ _ _ _ Hs). case_bool_decide.
    + by rewrite lookup_delete_ne.
    + by rewrite lookup_insert_ne.
  - by rewrite removeEventListener_no_entry.
Qed.

Lemma lookup_removeEventListener m E h :
  removeEventListener E h m !! E =
    match m !! E with
    | Some s =>
        if bool_decide (CallbackSet.delete h s = []) then None
        else Some (CallbackSet.delete h s)
    | None => None
    end.
Proof.
  destruct (m !! E) as [s |] eqn:Hs.
  - rewrite (removeEventListener_entry _ _ _ _ Hs). case_bool_decide.
    + by rewrite lookup_delete_eq.
    + by rewrite lookup_insert_eq.
  - by rewrite removeEventListener_no_entry.
Qed.

Lemma handles_removeEventListener m E h :
  handles (removeEventListener E h m) E = CallbackSet.delete h (handles m E).
Proof.
  unfold handles. rewrite lookup_removeEventListener.
  destruct (m !! E) as [s |]; simpl; [| done].
  case_bool_decide as Hd; simpl; [by rewrite Hd | done].
Qed.

Lemma handles_removeEventListener_ne m E E' h :
  E ≠ E' → handles (removeEventListener E h m) E' = handles m E'.
Proof. intros. unfold handles. by rewrite lookup_removeEventListener_ne. Qed.

Lemma removeEventListener_absent m E h :
  no_empty_entry m → h ∉ handles m E → removeEventListener E h m = m.
Proof.
  intros Hinv Hin. destruct (m !! E) as [s |] eqn:Hs.
  - rewrite (removeEventListener_entry _ _ _ _ Hs).
    rewrite (handles_Some _ _ _ Hs) in Hin.
    rewrite set_delete_absent by done.
    rewrite bool_decide_eq_false_2 by eauto.
    by apply insert_id.
  - by apply removeEventListener_no_entry.
Qed.

Lemma removeEventListener_twice m E h :
  removeEventListener E h (removeEventListener E h m) =
  removeEventListener E h m.
Proof.
  destruct (removeEventListener E h m !! E) as [s |] eqn:Hs.
  - rewrite (removeEventListener_entry _ _ _ _ Hs).
    pose proof Hs as Hs'. rewrite lookup_removeEventListener in Hs'.
    destruct (m !! E) as [s0 |]; [| done].
    case_bool_decide as Hd; simplify_eq.
    rewrite set_delete_twice, bool_decide_eq_false_2 by done.
    by apply insert_id.
  - by apply removeEventListener_no_entry.
Qed.
End methods.

(** ** The invariants are kept by the registration methods *)

Lemma no_empty_entry_empty : no_empty_entry ∅.
Proof. intros E s Hs. by rewrite lookup_empty in Hs. Qed.

Lemma no_duplicates_empty : no_duplicates ∅.
Proof. intros E s Hs. by rewrite lookup_empty in Hs. Qed.

Lemma no_empty_entry_add E h (m : gmap string (list handle)) :
  no_empty_entry m → no_empty_entry (addEventListener E h m).
Proof.
  intros Hinv E' s. destruct (decide (E = E')) as [<- | Hne].
  - rewrite lookup_addEventListener. intros [= <-]. apply set_add_nonempty.
  - rewrite lookup_addEventListener_ne by done. apply Hinv.
Qed.

Lemma no_empty_entry_remove E h (m : gmap string (list handle)) :
  no_empty_entry m → no_empty_entry (removeEventListener E h m).
Proof.
  intros Hinv E' s. destruct (decide (E = E')) as [<- | Hne].
  - rewrite lookup_removeEventListener. destruct (m !! E); [| done].
    case_bool_decide; [done |]. by intros [= <-].
  - rewrite lookup_removeEventListener_ne by done. apply Hinv.
Qed.

Lemma no_duplicates_add E h (m : gmap string (list handle)) :
  no_duplicates m → no_duplicates (addEventListener E h m).
Proof.
  intros Hinv E' s. destruct (decide (E = E')) as [<- | Hne].
  - rewrite lookup_addEventListener. intros [= <-]. apply set_add_NoDup.
    unfold handles. destruct (m !! E) as [s |] eqn:Hs; simpl.
    + by apply (Hinv E).
    + apply NoDup_nil_2.
  - rewrite lookup_addEventListener_ne by done. apply Hinv.
Qed.

Lemma no_duplicates_remove E h (m : gmap string (list handle)) :
  no_duplicates m → no_duplicates (removeEventListener E h m).
Proof.
  intros Hinv E' s. destruct (decide (E = E')) as [<- | Hne].
  - rewrite lookup_removeEventListener. destruct (m !! E) as [s0 |] eqn:Hs; [| done].
    case_bool_decide; [done |]. intros [= <-].
    apply set_delete_NoDup. by apply (Hinv E).
  - rewrite lookup_removeEventListener_ne by done. apply Hinv.
Qed.

(** ** What a dispatch calls, and what it keeps *)

Lemma forEach_direct_calls call snapshot (m m' : gmap string (list handle)) tr :
  forEach call snapshot m = Some (m', tr) → direct_calls tr = snapshot.
Proof.
  revert m m' tr. induction snapshot as [| h rest IH]; intros m m' tr; simpl.
  - by intros [= <- <-].
  - destruct (call h m) as [[m1 inside] |]; [| done].
    destruct (forEach call rest m1) as [[m2 later] |] eqn:Hrest; [| done].
    intros [= <- <-]. unfold direct_calls in *. simpl. f_equal. by eapply IH.
Qed.

(** The calls made by [dispatchEvent] itself are the set as it stood when
    the dispatch began, whatever the callbacks do. *)
Lemma dispatchEvent_direct_calls body fuel E (m m' : gmap string (list handle)) tr :
  dispatchEvent body fuel E m = Some (m', tr) →
  direct_calls tr = handles m E.
Proof.
  destruct fuel as [| fuel]; [done |]. simpl. unfold handles.
  destruct (m !! E) as [s |]; simpl.
  - apply forEach_direct_calls.
  - by intros [= <- <-].
Qed.

Lemma dispatchEvent_no_entry body fuel E (m : gmap string (list handle)) :
  m !! E = None → dispatchEvent body (S fuel) E m = Some (m, []).
Proof. simpl. by intros ->. Qed.

(** A property of the registry kept by the two registration methods is kept
    by every run, whatever the callbacks do. *)
Section preservation.
Variable P : gmap string (list handle) → Prop.
Hypothesis P_add : ∀ E h m, P m → P (addEventListener E h m).
Hypothesis P_remove : ∀ E h m, P m → P (removeEventListener E h m).

Lemma run_preserves dispatch acts :
  (∀ E m m' tr, dispatch E m = Some (m', tr) → P m → P m') →
  ∀ m m' tr, run dispatch acts m = Some (m', tr) → P m → P m'.
Proof.
  intros Hd. induction acts as [| a acts IH]; intros m m' tr; simpl.
  - by intros [= <- <-].
  - destruct a as [msg | E h | E h | E].
    + destruct (run dispatch acts m) as [[m1 later] |] eqn:Hr; [| done].
      intros [= <- <-]. by eapply IH.
    + intros Hr Hm. eapply IH; [done |]. by apply P_add.
    + intros Hr Hm. eapply IH; [done |]. by apply P_remove.
    + destruct (dispatch E m) as [[m1 during] |] eqn:Hdi; [| done].
      destruct (run dispatch acts m1) as [[m2 later] |] eqn:Hr; [| done].
      intros [= <- <-] Hm. eapply IH; [done |]. by eapply Hd.
Qed.

Lemma forEach_preserves call snapshot :
  (∀ h m m' tr, call h m = Some (m', tr) → P m → P m') →
  ∀ m m' tr, forEach call snapshot m = Some (m', tr) → P m → P m'.
Proof.
  intros Hc. induction snapshot as [| h rest IH]; intros m m' tr; simpl.
  - by intros [= <- <-].
  - destruct (call h m) as [[m1 inside] |] eqn:Hcall; [| done].
    destruct (forEach call rest m1) as [[m2 later] |] eqn:Hrest; [| done].
    intros [= <- <-] Hm. eapply IH; [done |]. by eapply Hc.
Qed.

Lemma dispatchEvent_preserves body fuel :
  ∀ E m m' tr, dispatchEvent body fuel E m = Some (m', tr) → P m → P m'.
Proof.
  induction fuel as [| fuel IH]; intros E m m' tr; [done |]. simpl.
  destruct (m !! E) as [s |].
  - apply forEach_preserves. intros h. by apply run_preserves.
  - by intros [= <- <-].
Qed.
End preservation.

(** ** Dispatch returns when no callback dispatches *)

Lemma run_dispatch_free dispatch acts (m : gmap string (list handle)) :
  (∀ E, ActDispatch E ∉ acts) →
  ∃ m' tr, run dispatch acts m = Some (m', tr) ∧ invocations tr = [].
Proof.
  revert m. induction acts as [| a acts IH]; intros m Hfree; simpl.
  - by eexists _, _.
  - assert (Hfree' : ∀ E, ActDispatch E ∉ acts).
    { intros E Hin. apply (Hfree E). by right. }
    destruct a as [msg | E h | E h | E].
    + destruct (IH m Hfree') as (m' & tr & -> & Htr).
      by eexists _, _.
    + apply IH, Hfree'.
    + apply IH, Hfree'.
    + exfalso. apply (Hfree E). by left.
Qed.

Lemma forEach_returns call snapshot (m : gmap string (list handle)) :
  (∀ h m, ∃ m' tr, call h m = Some (m', tr) ∧ invocations tr = []) →
  ∃ m' tr, forEach call snapshot m = Some (m', tr) ∧ invocations tr = snapshot.
Proof.
  intros Hc. revert m. induction snapshot as [| h rest IH]; intros m; simpl.
  - by eexists _, _.
  - destruct (Hc h m) as (m1 & inside & -> & Hin).
    destruct (IH m1) as (m2 & later & -> & Hl).
    eexists _, _. split; [done |].
    unfold invocations in *. simpl. by rewrite Hin, Hl.
Qed.

(** With callbacks that do not dispatch, one frame is enough: the dispatch
    returns, and the callbacks invoked, nested ones included, are the set as
    it stood when the dispatch began. *)
Lemma dispatchEvent_returns body fuel E (m : gmap string (list handle)) :
  dispatch_free body →
  ∃ m' tr, dispatchEvent body (S fuel) E m = Some (m', tr)
           ∧ direct_calls tr = handles m E
           ∧ invocations tr = handles m E.
Proof.
  intros Hfree.
  assert (∃ m' tr, dispatchEvent body (S fuel) E m = Some (m', tr)
                   ∧ invocations tr = handles m E) as (m' & tr & Hd & Hi).
  { simpl. unfold handles. destruct (m !! E) as [s |]; simpl.
    - apply forEach_returns. intros h m0. apply run_dispatch_free, Hfree.
    - by eexists _, _. }
  exists m', tr. split_and!; [done | | done].
  by eapply dispatchEvent_direct_calls.
Qed.

(** More call stack does not change the result of a dispatch that
    returned. *)
Lemma run_mono (d1 d2 : string → gmap string (list handle) → outcome) acts :
  (∀ E m r, d1 E m = Some r → d2 E m = Some r) →
  ∀ m r, run d1 acts m = Some r → run d2 acts m = Some r.
Proof.
  intros Hd. induction acts as [| a acts IH]; intros m r; simpl; [done |].
  destruct a as [msg | E h | E h | E]; try apply IH.
  - destruct (run d1 acts m) as [[m1 later] |] eqn:Hr; [| done].
    by rewrite (IH _ _ Hr).
  - destruct (d1 E m) as [[m1 during] |] eqn:Hdi; [| done].
    rewrite (Hd _ _ _ Hdi).
    destruct (run d1 acts m1) as [[m2 later] |] eqn:Hr; [| done].
    by rewrite (IH _ _ Hr).
Qed.

Lemma forEach_mono (c1 c2 : handle → gmap string (list handle) → outcome) snapshot :
  (∀ h m r, c1 h m = Some r → c2 h m = Some r) →
  ∀ m r, forEach c1 snapshot m = Some r → forEach c2 snapshot m = Some r.
Proof.
  intros Hc. induction snapshot as [| h rest IH]; intros m r; simpl; [done |].
  destruct (c1 h m) as [[m1 inside] |] eqn:Hcall; [| done].
  rewrite (Hc _ _ _ Hcall).
  destruct (forEach c1 rest m1) as [[m2 later] |] eqn:Hrest; [| done].
  by rewrite (IH _ _ Hrest).
Qed.

Lemma dispatchEvent_mono body fuel fuel' :
  fuel ≤ fuel' →
  ∀ E m r, dispatchEvent body fuel E m = Some r →
           dispatchEvent body fuel' E m = Some r.
Proof.
  revert fuel'. induction fuel as [| fuel IH]; intros fuel' Hle E m r; [done |].
  destruct fuel' as [| fuel']; [lia |]. simpl.
  destruct (m !! E) as [s |]; [| done].
  apply forEach_mono. intros h. apply run_mono. apply IH. lia.
Qed.

(** ** Sequences of registrations *)

Lemma apply_all_cons r ops (m : gmap string (list handle)) :
  apply_all (r :: ops) m = apply_all ops (apply_registration r m).
Proof. done. Qed.

Lemma no_duplicates_apply_all ops (m : gmap string (list handle)) :
  no_duplicates m → no_duplicates (apply_all ops m).
Proof.
  revert m. induction ops as [| r ops IH]; intros m Hm; [done |].
  rewrite apply_all_cons. apply IH. destruct r; simpl.
  - by apply no_duplicates_add.
  - by apply no_duplicates_remove.
Qed.

Lemma no_empty_entry_apply_all ops (m : gmap string (list handle)) :
  no_empty_entry m → no_empty_entry (apply_all ops m).
Proof.
  revert m. induction ops as [| r ops IH]; intros m Hm; [done |].
  rewrite apply_all_cons. apply IH. destruct r; simpl.
  - by apply no_empty_entry_add.
  - by apply no_empty_entry_remove.
Qed.

(** A callback registered for an event name was registered for it already or
    is registered for it by one of the calls. *)
Lemma handles_apply_all_elem ops (m : gmap string (list handle)) E h :
  h ∈ handles (apply_all ops m) E →
  h ∈ handles m E ∨ Register E h ∈ ops.
Proof.
  revert m. induction ops as [| r ops IH]; intros m; [by left |].
  rewrite apply_all_cons. intros [Hin | Hin]%IH; [| right; by right].
  destruct r as [E' h' | E' h']; simpl in Hin.
  - destruct (decide (E' = E)) as [-> | Hne].
    + rewrite handles_addEventListener in Hin.
      apply set_add_elem in Hin as [-> | Hin]; [right; by left | by left].
    + rewrite handles_addEventListener_ne in Hin by done. by left.
  - destruct (decide (E' = E)) as [-> | Hne].
    + rewrite handles_removeEventListener in Hin.
      apply set_delete_elem in Hin as [_ Hin]. by left.
    + rewrite handles_removeEventListener_ne in Hin by done. by left.
Qed.

(** ** The order of a callback set after a sequence of registrations *)

Lemma filter_first_occurrences (P : handle → Prop) `{!∀ x, Decision (P x)} l :
  filter P (first_occurrences l) = first_occurrences (filter P l).
Proof.
  induction l as [| x l IH]; [done |]. simpl.
  destruct (decide (P x)) as [Hx | Hx].
  - rewrite !filter_cons_True by done. simpl. f_equal.
    rewrite <- IH. rewrite !list_filter_filter.
    apply list_filter_iff. tauto.
  - rewrite !filter_cons_False by done. rewrite <- IH.
    apply list_filter_filter_l. by intros y Hy ->.
Qed.

Lemma first_occurrences_NoDup l : NoDup l → first_occurrences l = l.
Proof.
  induction 1 as [| x l Hx Hl IH]; [done |]. simpl. rewrite IH. f_equal.
  by apply set_delete_absent.
Qed.

Lemma first_occurrences_repeated l1 l2 h :
  h ∈ l1 → first_occurrences (l1 ++ h :: l2) = first_occurrences (l1 ++ l2).
Proof.
  induction l1 as [| x l1 IH]; [by intros ?%not_elem_of_nil |].
  intros Hin. simpl. f_equal. destruct (decide (h = x)) as [-> | Hne].
  - rewrite !filter_first_occurrences. f_equal.
    rewrite !filter_app. f_equal. by rewrite filter_cons_False by tauto.
  - apply elem_of_cons in Hin as [? | Hin]; [done |]. by rewrite IH.
Qed.

(** The set of an event name after [ops], from the set before: what is left
    of the old members, then the standing registrations, each callback at
    its first occurrence. *)
Lemma handles_apply_all ops (m : gmap string (list handle)) E :
  NoDup (handles m E) →
  handles (apply_all ops m) E =
    first_occurrences
      (filter (λ h, Unregister E h ∉ ops) (handles m E)
       ++ standing_registrations E ops).
Proof.
  revert m. induction ops as [| r ops IH]; intros m Hm.
  - simpl. rewrite app_nil_r.
    rewrite (list_filter_iff _ (λ _, True))
      by (intros x; split; [done | intros _; apply not_elem_of_nil]).
    rewrite first_occurrences_NoDup; [| by apply NoDup_filter].
    induction (handles m E) as [| y l IHl]; [done |].
    rewrite filter_cons_True by done. f_equal. apply IHl. by inversion Hm.
  - rewrite apply_all_cons. destruct r as [E' h | E' h]; simpl.
    + rewrite (list_filter_iff (λ x, Unregister E x ∉ Register E' h :: ops)
                               (λ x, Unregister E x ∉ ops))
        by (intros x; rewrite not_elem_of_cons; split; [by intros [_ ?] | done]).
      destruct (decide (E' = E)) as [-> | Hne].
      * rewrite IH; rewrite handles_addEventListener; [| by apply set_add_NoDup].
        destruct (decide (h ∈ handles m E)) as [Hin | Hin].
        -- rewrite set_add_present by done.
           destruct (decide (Unregister E h ∉ ops)) as [Hst | Hst].
           ++ rewrite decide_True by done.
              rewrite first_occurrences_repeated; [done |].
              by apply list_elem_of_filter.
           ++ by rewrite decide_False by tauto.
        -- rewrite set_add_fresh by done. rewrite filter_app.
           destruct (decide (Unregister E h ∉ ops)) as [Hst | Hst].
           ++ rewrite decide_True by done.
              rewrite filter_cons_True, filter_nil by done.
              by rewrite <- app_assoc.
           ++ rewrite decide_False by tauto.
              rewrite filter_cons_False, filter_nil by done.
              by rewrite app_nil_r.
      * rewrite decide_False by tauto.
        rewrite IH; rewrite handles_addEventListener_ne by done; done.
    + destruct (decide (E' = E)) as [-> | Hne].
      * rewrite IH; rewrite handles_removeEventListener;
          [| by apply set_delete_NoDup].
        unfold CallbackSet.delete. rewrite list_filter_filter.
        do 2 f_equal. apply list_filter_iff. intros x.
        rewrite not_elem_of_cons. split.
        -- intros [? ?]. split; [congruence | done].
        -- intros [Hne ?]. split; [done | congruence].
      * rewrite IH; rewrite handles_removeEventListener_ne by done; [| done].
        do 2 f_equal. apply list_filter_iff. intros x.
        rewrite not_elem_of_cons. split; [| by intros [_ ?]].
        intros ?. split; [congruence | done].
Qed.

Lemma handles_fresh_target ops E :
  handles (apply_all ops ∅) E = standing_registration_order E ops.
Proof.
  rewrite handles_apply_all.
  - unfold handles. by rewrite lookup_empty.
  - unfold handles. rewrite lookup_empty. apply NoDup_nil_2.
Qed.

Lemma standing_registrations_no_removal ops E :
  (∀ h, Unregister E h ∉ ops) →
  standing_registrations E ops = registrations_for E ops.
Proof.
  induction ops as [| r ops IH]; intros Hno; [done |].
  assert (Hno' : ∀ h, Unregister E h ∉ ops).
  { intros h Hin. apply (Hno h). by right. }
  destruct r as [E' h | E' h]; simpl.
  - unfold registrations_for. simpl. fold (registrations_for E ops).
    destruct (decide (E' = E)) as [-> | Hne].
    + rewrite decide_True by auto. simpl. f_equal. by apply IH.
    + rewrite decide_False by tauto. simpl. by apply IH.
  - by apply IH.
Qed.

(** ** The callbacks of the two scenarios *)

Lemma sample_dispatch_free : dispatch_free Sample.body.
Proof.
  intros h E. unfold Sample.body.
  repeat (destruct h as [| h]; [by intros [? | ?%not_elem_of_nil]%elem_of_cons |]).
  apply not_elem_of_nil.
Qed.

Lemma reentrant_dispatch_free : dispatch_free Reentrant.body.
Proof.
  intros h E. unfold Reentrant.body.
  do 10 (destruct h as [| h]; [apply not_elem_of_nil |]).
  destruct h as [| h].
  { by intros [? | [? | ?%not_elem_of_nil]%elem_of_cons]%elem_of_cons. }
  repeat (destruct h as [| h]; [by intros [? | ?%not_elem_of_nil]%elem_of_cons |]).
  apply not_elem_of_nil.
Qed.


Lemma sample_registered_no_empty_entry : no_empty_entry Sample.registered.
Proof.
  unfold Sample.registered.
  repeat apply no_empty_entry_add. apply no_empty_entry_empty.
Qed.

(** ** What each call of a dispatch does *)




Lemma run_dispatch_free_result dispatch acts (m : gmap string (list handle)) :
  (∀ E, ActDispatch E ∉ acts) →
  run dispatch acts m = Some (effect acts m, Logged <$> lines_of acts).
Proof.
  revert m. induction acts as [| a acts IH]; intros m Hfree; [done |].
  assert (Hfree' : ∀ E, ActDispatch E ∉ acts).
  { intros E Hin. apply (Hfree E). by right. }
  destruct a as [msg | E h | E h | E]; simpl.
  - by rewrite IH.
  - by apply IH.
  - by apply IH.
  - exfalso. apply (Hfree E). by left.
Qed.

Lemma forEach_dispatch_free_result dispatch body snapshot
    (m : gmap string (list handle)) :
  dispatch_free body →
  forEach (λ h, run dispatch (body h)) snapshot m
  = Some (effects_in_turn body snapshot m, trace_of_calls body snapshot).
Proof.
  intros Hfree. revert m. induction snapshot as [| h rest IH]; intros m; [done |].
  simpl. rewrite run_dispatch_free_result by apply Hfree. by rewrite IH.
Qed.

(** With callbacks that do not dispatch, the whole result of a dispatch:
    the registry after the bodies of the set's callbacks ran in turn, and
    one invocation per callback with the lines it printed. *)
Lemma dispatchEvent_dispatch_free_result body fuel E
    (m : gmap string (list handle)) :
  dispatch_free body →
  dispatchEvent body (S fuel) E m
  = Some (effects_in_turn body (handles m E) m,
          trace_of_calls body (handles m E)).
Proof.
  intros Hfree. simpl. unfold handles.
  destruct (m !! E) as [s |]; simpl; [| done].
  by apply forEach_dispatch_free_result.
Qed.

Lemma console_logged (msgs : list string) :
  flat_map console_of (Logged <$> msgs) = msgs.
Proof. induction msgs as [| msg msgs IH]; [done |]. simpl. f_equal. exact IH. Qed.

Lemma invocations_logged (msgs : list string) :
  flat_map invocations_of (Logged <$> msgs) = [].
Proof. induction msgs as [| msg msgs IH]; [done |]. exact IH. Qed.

Lemma invocations_trace_of_calls body snapshot :
  invocations (trace_of_calls body snapshot) = snapshot.
Proof.
  unfold invocations, trace_of_calls.
  induction snapshot as [| h rest IH]; [done |].
  simpl. f_equal. transitivity ([] ++ rest); [| done].
  f_equal; [apply invocations_logged | exact IH].
Qed.



(** * The properties of the registry *)







(** C4.  Every event name that is a key of the map has a non-empty set: this
    holds of the fresh registry and is kept by [addEventListener], by
    [removeEventListener] and by [dispatchEvent] (whatever the callbacks
    do, so also when they leave the registry alone).  In particular, when
    [removeEventListener] removes the only callback of an event name, the
    map has no entry for that name afterwards. *)
Theorem no_empty_entry_invariant :
  no_empty_entry ∅
  ∧ (∀ E h m, no_empty_entry m → no_empty_entry (addEventListener E h m))
  ∧ (∀ E h m, no_empty_entry m → no_empty_entry (removeEventListener E h m))
  ∧ (∀ body fuel E m m' tr,
       no_empty_entry m →
       dispatchEvent body fuel E m = Some (m', tr) → no_empty_entry m')
  ∧ (∀ E h (m : gmap string (list handle)),
       m !! E = Some [h] → removeEventListener E h m !! E = None).
Proof.
  split_and!.
  - apply no_empty_entry_empty.
  - intros E h m. apply no_empty_entry_add.
  - intros E h m. apply no_empty_entry_remove.
  - intros body fuel E m m' tr Hm Hd.
    eapply (dispatchEvent_preserves no_empty_entry); [| | done | done].
    + intros ? ? ?. apply no_empty_entry_add.
    + intros ? ? ?. apply no_empty_entry_remove.
  - intros E h m Hs. rewrite lookup_removeEventListener, Hs.
    unfold CallbackSet.delete. by rewrite filter_cons_False, filter_nil by tauto.
Qed.

Lemma no_empty_entry_invariant_witness :
  Sample.registered !! "hello" = Some [Sample.logHello]
  ∧ Sample.removed !! "hello" = None
  ∧ no_empty_entry Sample.removed.
Proof.
  assert (Hs : Sample.registered !! "hello" = Some [Sample.logHello])
    by (vm_compute; reflexivity).
  destruct no_empty_entry_invariant as (_ & _ & Hrem & _ & Hlast).
  split_and!.
  - exact Hs.
  - exact (Hlast "hello" Sample.logHello Sample.registered Hs).
  - exact (Hrem "hello" Sample.logHello Sample.registered
             sample_registered_no_empty_entry).
Defined.

(** C5.  [removeEventListener] returns the registry unchanged when the event
    name has no entry and when the callback is not in the entry's set, and
    [dispatchEvent] returns at once with the registry unchanged when the
    event name has no entry; none of the three can fail.  Removing the same
    callback a second time changes nothing more, and a dispatch of the
    event name after that does not call the callback. *)
Theorem removal_and_dispatch_silent body E h (m : gmap string (list handle)) :
  (m !! E = None → removeEventListener E h m = m)
  ∧ (no_empty_entry m → h ∉ handles m E → removeEventListener E h m = m)
  ∧ (m !! E = None → ∀ fuel, dispatchEvent body (S fuel) E m = Some (m, []))
  ∧ removeEventListener E h (removeEventListener E h m)
    = removeEventListener E h m
  ∧ (∀ fuel m' tr,
       dispatchEvent body fuel E
         (removeEventListener E h (removeEventListener E h m)) = Some (m', tr) →
       h ∉ direct_calls tr)
  ∧ (dispatch_free body →
     ∀ fuel, ∃ m' tr,
       dispatchEvent body (S fuel) E
         (removeEventListener E h (removeEventListener E h m)) = Some (m', tr)
       ∧ h ∉ invocations tr).
Proof.
  assert (Hgone : h ∉ handles (removeEventListener E h m) E).
  { rewrite handles_removeEventListener, set_delete_elem. tauto. }
  rewrite removeEventListener_twice. split_and!.
  - apply removeEventListener_no_entry.
  - apply removeEventListener_absent.
  - intros Hs fuel. by apply dispatchEvent_no_entry.
  - done.
  - intros fuel m' tr Hd. by rewrite (dispatchEvent_direct_calls _ _ _ _ _ _ Hd).
  - intros Hfree fuel.
    destruct (dispatchEvent_returns body fuel E (removeEventListener E h m) Hfree)
      as (m' & tr & Hd & _ & Hi).
    exists m', tr. by rewrite Hi.
Qed.

Lemma removal_and_dispatch_silent_witness :
  no_empty_entry Sample.registered
  ∧ (Sample.worldAgain ∉ handles Sample.registered "hello")
  ∧ removeEventListener "hello" Sample.worldAgain Sample.registered
    = Sample.registered.
Proof.
  assert (Hin : Sample.worldAgain ∉ handles Sample.registered "hello").
  { vm_compute. intros Hin.
    by repeat apply elem_of_cons in Hin as [? | Hin];
      try apply not_elem_of_nil in Hin. }
  split_and!; [apply sample_registered_no_empty_entry | exact Hin |].
  exact (proj1 (proj2 (removal_and_dispatch_silent Sample.body "hello"
                         Sample.worldAgain Sample.registered))
           sample_registered_no_empty_entry Hin).
Defined.

(** C6.  For two different event names [A] and [B] and any sequence of
    registrations and removals on a fresh registry in which the callback is
    registered for no other name than [A], a dispatch of [B] does not call
    the callback. *)
Theorem dispatchEvent_other_name body ops (A B : string) h :
  A ≠ B →
  (∀ E, Register E h ∈ ops → E = A) →
  (∀ fuel m' tr,
     dispatchEvent body fuel B (apply_all ops ∅) = Some (m', tr) →
     h ∉ direct_calls tr)
  ∧ (dispatch_free body →
     ∀ fuel, ∃ m' tr,
       dispatchEvent body (S fuel) B (apply_all ops ∅) = Some (m', tr)
       ∧ h ∉ invocations tr).
Proof.
  intros Hne Honly.
  assert (Hout : h ∉ handles (apply_all ops ∅) B).
  { intros [Hin | Hin]%handles_apply_all_elem.
    - unfold handles in Hin. rewrite lookup_empty in Hin.
      by apply not_elem_of_nil in Hin.
    - by apply Honly in Hin. }
  split.
  - intros fuel m' tr Hd. by rewrite (dispatchEvent_direct_calls _ _ _ _ _ _ Hd).
  - intros Hfree fuel.
    destruct (dispatchEvent_returns body fuel B (apply_all ops ∅) Hfree)
      as (m' & tr & Hd & _ & Hi).
    exists m', tr. by rewrite Hi.
Qed.

Lemma dispatchEvent_other_name_witness :
  ∃ m' tr,
    dispatchEvent Sample.body 1 "world"
      (apply_all [Register "hello" Sample.logHello;
                  Register "world" Sample.logWorld;
                  Unregister "hello" Sample.logHello;
                  Register "hello" Sample.logHello] ∅) = Some (m', tr)
    ∧ Sample.logHello ∉ invocations tr.
Proof.
  refine (proj2 (dispatchEvent_other_name Sample.body _ "hello" "world"
                   Sample.logHello _ _) sample_dispatch_free 0).
  - discriminate.
  - intros E Hin.
    repeat apply elem_of_cons in Hin as [Heq | Hin];
      try (by apply not_elem_of_nil in Hin); by inversion Heq.
Defined.




(** C8.  The sample usage.  On a fresh registry, after the four
    registrations (the fourth repeats the first), dispatching "hello" makes
    exactly one invocation, of [logHello], and dispatching "world" exactly
    two, of [logWorld] and of the anonymous listener; after [logHello] is
    removed from "hello", dispatching "hello" makes no invocation and
    dispatching "world" again exactly two.  The whole script prints the two
    headings and the lines of these invocations. *)
Theorem sample_usage (fuel : nat) :
  dispatchEvent Sample.body (S fuel) "hello" Sample.registered
    = Some (Sample.registered, [Invoked Sample.logHello [Logged "hello"]])
  ∧ dispatchEvent Sample.body (S fuel) "world" Sample.registered
    = Some (Sample.registered,
            [Invoked Sample.logWorld [Logged "world"];
             Invoked Sample.worldAgain [Logged "world again!"]])
  ∧ dispatchEvent Sample.body (S fuel) "hello" Sample.removed
    = Some (Sample.removed, [])
  ∧ dispatchEvent Sample.body (S fuel) "world" Sample.removed
    = Some (Sample.removed,
            [Invoked Sample.logWorld [Logged "world"];
             Invoked Sample.worldAgain [Logged "world again!"]])
  ∧ (∃ tr, Sample.main (S fuel) = Some (Sample.removed, tr)
           ∧ invocations tr
             = [Sample.logHello; Sample.logWorld; Sample.worldAgain;
                Sample.logWorld; Sample.worldAgain]
           ∧ console tr
             = [Sample.heading1; "hello"; "world"; "world again!";
                Sample.heading2; "world"; "world again!"]).
Proof.
  assert (Hfuel : 1 ≤ S fuel) by lia.
  split_and!.
  - apply (dispatchEvent_mono _ 1); [done |]. vm_compute. reflexivity.
  - apply (dispatchEvent_mono _ 1); [done |]. vm_compute. reflexivity.
  - apply (dispatchEvent_mono _ 1); [done |]. vm_compute. reflexivity.
  - apply (dispatchEvent_mono _ 1); [done |]. vm_compute. reflexivity.
  - eexists. split.
    + unfold Sample.main.
      apply (run_mono (dispatchEvent Sample.body 1)).
      * intros E m r. by apply dispatchEvent_mono.
      * vm_compute. reflexivity.
    + split; vm_compute; reflexivity.
Qed.

(** C9, as written: the callbacks are called in the order in which each was
    first registered for the event name.  It fails when a callback is
    removed and registered again: after registering 1 and 2, removing 1 and
    registering 1 again, the dispatch calls 2 before 1. *)
Lemma first_registration_order_refuted :
  ¬ calls_in_first_registration_order (λ _, []) 1 "e"
      [Register "e" 1; Register "e" 2; Unregister "e" 1; Register "e" 1].
Proof.
  intros Hclaim.
  specialize (Hclaim (<["e" := [2; 1]]> ∅) [Invoked 2 []; Invoked 1 []]).
  assert (Hd : dispatchEvent (λ _, []) 1 "e"
                 (apply_all [Register "e" 1; Register "e" 2;
                             Unregister "e" 1; Register "e" 1] ∅)
               = Some (<["e" := [2; 1]]> ∅, [Invoked 2 []; Invoked 1 []]))
    by (vm_compute; reflexivity).
  apply Hclaim in Hd. vm_compute in Hd. discriminate Hd.
Qed.

(** C9, amended.  After any sequence of registrations and removals on a
    fresh registry, [dispatchEvent] calls the callbacks of the event name in
    the order in which each was first registered for it since it was last
    removed from it, which is the insertion order of the set; when no
    callback was removed from the event name, this is the order in which
    each was first registered. *)
Theorem dispatchEvent_order body E ops :
  (∀ fuel m' tr,
     dispatchEvent body fuel E (apply_all ops ∅) = Some (m', tr) →
     direct_calls tr = standing_registration_order E ops)
  ∧ (dispatch_free body →
     ∀ fuel, ∃ m' tr,
       dispatchEvent body (S fuel) E (apply_all ops ∅) = Some (m', tr)
       ∧ invocations tr = standing_registration_order E ops)
  ∧ ((∀ h, Unregister E h ∉ ops) →
     standing_registration_order E ops = first_registration_order E ops).
Proof.
  split_and!.
  - intros fuel m' tr Hd.
    rewrite (dispatchEvent_direct_calls _ _ _ _ _ _ Hd).
    apply handles_fresh_target.
  - intros Hfree fuel.
    destruct (dispatchEvent_returns body fuel E (apply_all ops ∅) Hfree)
      as (m' & tr & Hd & _ & Hi).
    exists m', tr. by rewrite Hi, handles_fresh_target.
  - intros Hno. unfold standing_registration_order, first_registration_order.
    by rewrite standing_registrations_no_removal.
Qed.

Lemma dispatchEvent_order_witness :
  ∃ m' tr,
    dispatchEvent Sample.body 1 "e"
      (apply_all [Register "e" 1; Register "e" 2;
                  Unregister "e" 1; Register "e" 1] ∅) = Some (m', tr)
    ∧ direct_calls tr = [2; 1].
Proof.
  eexists _, _. split; [vm_compute; reflexivity |].
  refine (eq_trans
            (proj1 (dispatchEvent_order Sample.body "e"
                      [Register "e" 1; Register "e" 2;
                       Unregister "e" 1; Register "e" 1]) 1 _ _ _) _).
  - vm_compute. reflexivity.
  - vm_compute. reflexivity.
Defined.

(** C10.  When the callback is not registered for the event name,
    registering it and then removing it gives back the registry as it was;
    in particular an event name that had no entry has none again. *)
Theorem add_then_remove E h (m : gmap string (list handle)) :
  no_empty_entry m →
  h ∉ handles m E →
  removeEventListener E h (addEventListener E h m) = m
  ∧ (m !! E = None →
     addEventListener E h m !! E = Some [h]
     ∧ removeEventListener E h (addEventListener E h m) !! E = None).
Proof.
  intros Hinv Hin.
  assert (Hback : removeEventListener E h (addEventListener E h m) = m).
  { rewrite (removeEventListener_entry _ _ _ _ (lookup_addEventListener m E h)).
    rewrite set_delete_add_fresh by done.
    rewrite addEventListener_insert.
    destruct (m !! E) as [s |] eqn:Hs.
    - rewrite (handles_Some _ _ _ Hs).
      rewrite bool_decide_eq_false_2 by eauto.
      rewrite insert_insert_eq. by apply insert_id.
    - rewrite (handles_None _ _ Hs).
      rewrite bool_decide_eq_true_2 by done.
      rewrite delete_insert_eq. by apply delete_id. }
  split; [done |]. intros Hs. rewrite Hback. split; [| done].
  rewrite lookup_addEventListener, (handles_None _ _ Hs). done.
Qed.

Lemma add_then_remove_witness :
  no_empty_entry Sample.removed
  ∧ (Sample.logHello ∉ handles Sample.removed "hello")
  ∧ removeEventListener "hello" Sample.logHello
      (addEventListener "hello" Sample.logHello Sample.removed)
    = Sample.removed.
Proof.
  assert (Hinv : no_empty_entry Sample.removed).
  { apply no_empty_entry_remove, sample_registered_no_empty_entry. }
  assert (Hin : Sample.logHello ∉ handles Sample.removed "hello").
  { vm_compute. apply not_elem_of_nil. }
  split_and!; [exact Hinv | exact Hin |].
  exact (proj1 (add_then_remove "hello" Sample.logHello Sample.removed Hinv Hin)).
Defined.


(** * Further properties of the three methods *)

(** ** More facts about the callback set *)

Lemma set_delete_comm (s : list handle) h1 h2 :
  CallbackSet.delete h1 (CallbackSet.delete h2 s)
  = CallbackSet.delete h2 (CallbackSet.delete h1 s).
Proof.
  unfold CallbackSet.delete. rewrite !list_filter_filter.
  apply list_filter_iff. tauto.
Qed.

Lemma set_delete_nil_iff (s : list handle) h :
  CallbackSet.delete h s = [] ↔ ∀ x, x ∈ s → x = h.
Proof.
  split.
  - intros Hnil x Hx. destruct (decide (x = h)) as [| Hne]; [done |].
    assert (Hin : x ∈ CallbackSet.delete h s) by (by apply set_delete_elem).
    rewrite Hnil in Hin. by apply not_elem_of_nil in Hin.
  - intros Hall. destruct (CallbackSet.delete h s) as [| y l] eqn:Hd; [done |].
    assert (Hin : y ∈ CallbackSet.delete h s) by (rewrite Hd; by left).
    apply set_delete_elem in Hin as [Hne Hin]. by apply Hall in Hin.
Qed.

Lemma set_delete_add_ne (s : list handle) h1 h2 :
  h1 ≠ h2 →
  CallbackSet.delete h2 (CallbackSet.add h1 s)
  = CallbackSet.add h1 (CallbackSet.delete h2 s).
Proof.
  intros Hne. destruct (decide (h1 ∈ s)) as [Hin | Hin].
  - rewrite (set_add_present s) by done.
    rewrite set_add_present; [done |]. by apply set_delete_elem.
  - rewrite (set_add_fresh s) by done.
    rewrite set_add_fresh by (rewrite set_delete_elem; tauto).
    unfold CallbackSet.delete.
    by rewrite filter_app, filter_cons_True, filter_nil by done.
Qed.

Lemma elem_of_first_occurrences l x : x ∈ first_occurrences l ↔ x ∈ l.
Proof.
  induction l as [| y l IH]; [done |]. simpl.
  rewrite !elem_of_cons, list_elem_of_filter, IH.
  destruct (decide (x = y)); tauto.
Qed.

(** ** How the two registration methods compose *)

(** X1.  [addEventListener] and [removeEventListener] on one event name
    leave the entry of every other event name as it was. *)
Theorem other_names_untouched (E E' : string) h (m : gmap string (list handle)) :
  E ≠ E' →
  addEventListener E h m !! E' = m !! E'
  ∧ removeEventListener E h m !! E' = m !! E'.
Proof.
  intros Hne. split.
  - by apply lookup_addEventListener_ne.
  - by apply lookup_removeEventListener_ne.
Qed.

Lemma other_names_untouched_witness :
  addEventListener "hello" Sample.worldAgain Sample.registered !! "world"
    = Sample.registered !! "world"
  ∧ removeEventListener "hello" Sample.logHello Sample.registered !! "world"
    = Sample.registered !! "world".
Proof.
  split.
  - refine (proj1 (other_names_untouched "hello" "world" Sample.worldAgain
                     Sample.registered _)). discriminate.
  - refine (proj2 (other_names_untouched "hello" "world" Sample.logHello
                     Sample.registered _)). discriminate.
Defined.

(** X2.  Two removals give the same registry in either order, whatever the
    event names and the callbacks. *)
Theorem removeEventListener_comm E1 h1 E2 h2 (m : gmap string (list handle)) :
  removeEventListener E1 h1 (removeEventListener E2 h2 m)
  = removeEventListener E2 h2 (removeEventListener E1 h1 m).
Proof.
  apply map_eq. intros i. destruct (decide (E1 = E2)) as [<- | Hne].
  - destruct (decide (E1 = i)) as [<- | Hi].
    + rewrite !lookup_removeEventListener.
      destruct (m !! E1) as [s |]; [| done].
      destruct (decide (CallbackSet.delete h1 s = [])) as [H1 | H1];
        destruct (decide (CallbackSet.delete h2 s = [])) as [H2 | H2].
      * by rewrite !bool_decide_eq_true_2 by done.
      * rewrite (bool_decide_eq_true_2 _ H1), (bool_decide_eq_false_2 _ H2).
        rewrite set_delete_comm, H1. done.
      * rewrite (bool_decide_eq_true_2 _ H2), (bool_decide_eq_false_2 _ H1).
        rewrite <- set_delete_comm, H2. done.
      * rewrite (bool_decide_eq_false_2 _ H1), (bool_decide_eq_false_2 _ H2).
        by rewrite set_delete_comm.
    + by rewrite !lookup_removeEventListener_ne.
  - destruct (decide (E1 = i)) as [<- | Hi1].
    + rewrite lookup_removeEventListener.
      rewrite !(lookup_removeEventListener_ne _ E2 E1) by done.
      by rewrite lookup_removeEventListener.
    + rewrite (lookup_removeEventListener_ne _ E1 i) by done.
      destruct (decide (E2 = i)) as [<- | Hi2].
      * rewrite !(lookup_removeEventListener _ E2).
        by rewrite (lookup_removeEventListener_ne _ E1 E2).
      * by rewrite !lookup_removeEventListener_ne.
Qed.

(** X3.  Registering one listener and removing another give the same
    registry in either order: the two differ in the event name or in the
    callback. *)
Theorem add_remove_comm E1 h1 E2 h2 (m : gmap string (list handle)) :
  E1 ≠ E2 ∨ h1 ≠ h2 →
  addEventListener E1 h1 (removeEventListener E2 h2 m)
  = removeEventListener E2 h2 (addEventListener E1 h1 m).
Proof.
  intros Hdiff. apply map_eq. intros i.
  destruct (decide (E1 = E2)) as [<- | Hne].
  - destruct Hdiff as [? | Hh]; [done |].
    destruct (decide (E1 = i)) as [<- | Hi].
    + rewrite lookup_addEventListener, handles_removeEventListener.
      rewrite lookup_removeEventListener, lookup_addEventListener.
      rewrite set_delete_add_ne by done.
      by rewrite bool_decide_eq_false_2 by apply set_add_nonempty.
    + rewrite lookup_addEventListener_ne, !lookup_removeEventListener_ne by done.
      by rewrite lookup_addEventListener_ne.
  - destruct (decide (E1 = i)) as [<- | Hi1].
    + rewrite lookup_addEventListener, handles_removeEventListener_ne by done.
      rewrite lookup_removeEventListener_ne by done.
      by rewrite lookup_addEventListener.
    + rewrite lookup_addEventListener_ne by done.
      destruct (decide (E2 = i)) as [<- | Hi2].
      * rewrite !lookup_removeEventListener.
        by rewrite lookup_addEventListener_ne.
      * rewrite !lookup_removeEventListener_ne by done.
        by rewrite lookup_addEventListener_ne.
Qed.

Lemma add_remove_comm_witness :
  addEventListener "world" Sample.logHello
    (removeEventListener "world" Sample.logWorld Sample.registered)
  = removeEventListener "world" Sample.logWorld
      (addEventListener "world" Sample.logHello Sample.registered).
Proof.
  refine (add_remove_comm "world" Sample.logHello "world" Sample.logWorld
            Sample.registered _).
  right. discriminate.
Defined.

(** X4.  Two registrations for different event names give the same
    registry in either order.  For the same event name they do not when the
    two callbacks differ and are both new: the first registered comes
    first in the set. *)
Theorem addEventListener_comm E1 h1 E2 h2 (m : gmap string (list handle)) :
  (E1 ≠ E2 →
   addEventListener E1 h1 (addEventListener E2 h2 m)
   = addEventListener E2 h2 (addEventListener E1 h1 m))
  ∧ (E1 = E2 → h1 ≠ h2 → h1 ∉ handles m E1 → h2 ∉ handles m E1 →
     handles (addEventListener E1 h1 (addEventListener E2 h2 m)) E1
       = handles m E1 ++ [h2; h1]
     ∧ addEventListener E1 h1 (addEventListener E2 h2 m)
       ≠ addEventListener E2 h2 (addEventListener E1 h1 m)).
Proof.
  split.
  - intros Hne.
    rewrite (addEventListener_insert (addEventListener E2 h2 m)).
    rewrite (addEventListener_insert (addEventListener E1 h1 m)).
    rewrite handles_addEventListener_ne by done.
    rewrite handles_addEventListener_ne by done.
    rewrite !addEventListener_insert. by apply insert_insert_ne.
  - intros <- Hh Hin1 Hin2.
    assert (Horder : ∀ a b, a ≠ b → a ∉ handles m E1 → b ∉ handles m E1 →
              handles (addEventListener E1 a (addEventListener E1 b m)) E1
              = handles m E1 ++ [b; a]).
    { intros a b Hab Ha Hb. rewrite !handles_addEventListener.
      rewrite (set_add_fresh _ b) by done.
      rewrite set_add_fresh.
      - by rewrite <- app_assoc.
      - rewrite elem_of_app, list_elem_of_singleton. tauto. }
    split; [by apply Horder |]. intros Heq.
    assert (Hl : handles m E1 ++ [h2; h1] = handles m E1 ++ [h1; h2]).
    { rewrite <- (Horder h1 h2), <- (Horder h2 h1) by done. by rewrite Heq. }
    apply app_inv_head in Hl. congruence.
Qed.

Lemma addEventListener_comm_witness :
  addEventListener "hello" Sample.logWorld
    (addEventListener "world" Sample.logHello Sample.registered)
  = addEventListener "world" Sample.logHello
      (addEventListener "hello" Sample.logWorld Sample.registered).
Proof.
  refine (proj1 (addEventListener_comm "hello" Sample.logWorld
                   "world" Sample.logHello Sample.registered) _).
  discriminate.
Defined.

(** X5.  Removing a callback and registering it again for the same event
    name puts it last in the set, after the callbacks that stayed, which
    keep their order. *)
Theorem reregistered_goes_last E h (m : gmap string (list handle)) :
  handles (addEventListener E h (removeEventListener E h m)) E
  = CallbackSet.delete h (handles m E) ++ [h].
Proof.
  rewrite handles_addEventListener, handles_removeEventListener.
  apply set_add_fresh. rewrite set_delete_elem. tauto.
Qed.

(** X6.  [removeEventListener] leaves no entry for the event name exactly
    when no other callback than the removed one was registered for it. *)
Theorem entry_dropped_iff E h (m : gmap string (list handle)) :
  removeEventListener E h m !! E = None ↔ ∀ x, x ∈ handles m E → x = h.
Proof.
  rewrite lookup_removeEventListener, <- set_delete_nil_iff. unfold handles.
  destruct (m !! E) as [s |]; simpl; [| done].
  case_bool_decide; split; done.
Qed.

Lemma entry_dropped_iff_witness :
  removeEventListener "world" Sample.logWorld Sample.registered !! "world" ≠ None.
Proof.
  intros Hnone.
  pose proof (proj1 (entry_dropped_iff "world" Sample.logWorld Sample.registered)
                Hnone Sample.worldAgain) as Hsame.
  assert (Hin : Sample.worldAgain ∈ handles Sample.registered "world").
  { vm_compute. right. left. }
  apply Hsame in Hin. discriminate Hin.
Defined.

(** X7.  A registration only appends: the set of every event name before it
    is a prefix of the set after it, at most one longer.  A removal only
    drops: the set of every event name after it is a sublist of the set
    before it. *)
Theorem sets_grow_and_shrink_in_place E h E' (m : gmap string (list handle)) :
  handles m E' `prefix_of` handles (addEventListener E h m) E'
  ∧ length (handles (addEventListener E h m) E') ≤ S (length (handles m E'))
  ∧ handles (removeEventListener E h m) E' `sublist_of` handles m E'.
Proof.
  destruct (decide (E = E')) as [<- | Hne].
  - rewrite handles_addEventListener, handles_removeEventListener.
    split_and!.
    + destruct (decide (h ∈ handles m E)) as [Hin | Hin].
      * by rewrite set_add_present.
      * rewrite set_add_fresh by done. by apply prefix_app_r.
    + destruct (decide (h ∈ handles m E)) as [Hin | Hin].
      * rewrite set_add_present by done. lia.
      * rewrite set_add_fresh, length_app by done. simpl. lia.
    + apply sublist_filter.
  - rewrite handles_addEventListener_ne, handles_removeEventListener_ne by done.
    split_and!; [done | lia | done].
Qed.

(** ** Which callbacks are registered after a history *)

Lemma elem_of_standing_registrations ops E h :
  h ∈ standing_registrations E ops
  ↔ ∃ before after, ops = before ++ Register E h :: after
                    ∧ Unregister E h ∉ after.
Proof.
  induction ops as [| r ops IH].
  - split; [by intros ?%not_elem_of_nil |].
    intros (before & after & Heq & _). by destruct before.
  - assert (Hlater : h ∈ standing_registrations E ops →
              ∃ before after, r :: ops = before ++ Register E h :: after
                              ∧ Unregister E h ∉ after).
    { intros (before & after & -> & Hno)%IH. by exists (r :: before), after. }
    assert (Hback : ∀ before after,
              r :: ops = before ++ Register E h :: after →
              Unregister E h ∉ after →
              (before = [] ∧ r = Register E h ∧ ops = after)
              ∨ h ∈ standing_registrations E ops).
    { intros before after Heq Hno. destruct before as [| b before].
      - left. by simplify_eq/=.
      - right. simplify_eq/=. apply IH. by exists before, after. }
    destruct r as [E' h' | E' h']; simpl.
    + destruct (decide (E' = E ∧ Unregister E h' ∉ ops)) as [[-> Hst] | Hst].
      * rewrite elem_of_cons. split.
        -- intros [-> | Hin]; [by exists [], ops | by apply Hlater].
        -- intros (before & after & Heq & Hno).
           destruct (Hback _ _ Heq Hno) as [(_ & ? & _) | ?]; [| by right].
           left. congruence.
      * split; [apply Hlater |].
        intros (before & after & Heq & Hno).
        destruct (Hback _ _ Heq Hno) as [(_ & ? & ->) | ?]; [| done].
        simplify_eq. tauto.
    + split; [apply Hlater |].
      intros (before & after & Heq & Hno).
      by destruct (Hback _ _ Heq Hno) as [(_ & ? & _) | ?].
Qed.

(** X8.  After any sequence of registrations and removals on a fresh
    registry, a callback is registered for an event name exactly when the
    sequence registers it for that name at some point and does not remove it
    from that name afterwards. *)
Theorem registered_iff_not_removed_since ops E h :
  h ∈ handles (apply_all ops ∅) E
  ↔ ∃ before after, ops = before ++ Register E h :: after
                    ∧ Unregister E h ∉ after.
Proof.
  rewrite handles_fresh_target. unfold standing_registration_order.
  rewrite elem_of_first_occurrences. apply elem_of_standing_registrations.
Qed.

Lemma registered_iff_not_removed_since_witness :
  Sample.logHello
    ∈ handles (apply_all [Register "hello" Sample.logHello;
                          Unregister "hello" Sample.logHello;
                          Register "hello" Sample.logHello;
                          Unregister "world" Sample.logHello] ∅) "hello".
Proof.
  apply registered_iff_not_removed_since.
  exists [Register "hello" Sample.logHello; Unregister "hello" Sample.logHello],
         [Unregister "world" Sample.logHello].
  split; [reflexivity |].
  intros Hin. apply elem_of_cons in Hin as [Heq | Hin];
    [discriminate Heq | by apply not_elem_of_nil in Hin].
Defined.

(** ** Invariants and effects of a dispatch *)

(** X9.  No callback occurs twice in the set of an event name: this holds
    of the fresh registry and is kept by [addEventListener], by
    [removeEventListener] and by [dispatchEvent] whatever the callbacks
    do. *)
Theorem no_duplicates_invariant :
  no_duplicates ∅
  ∧ (∀ E h m, no_duplicates m → no_duplicates (addEventListener E h m))
  ∧ (∀ E h m, no_duplicates m → no_duplicates (removeEventListener E h m))
  ∧ (∀ body fuel E m m' tr,
       no_duplicates m →
       dispatchEvent body fuel E m = Some (m', tr) → no_duplicates m').
Proof.
  split_and!.
  - apply no_duplicates_empty.
  - intros E h m. apply no_duplicates_add.
  - intros E h m. apply no_duplicates_remove.
  - intros body fuel E m m' tr Hm Hd.
    eapply (dispatchEvent_preserves no_duplicates); [| | done | done].
    + intros ? ? ?. apply no_duplicates_add.
    + intros ? ? ?. apply no_duplicates_remove.
Qed.

Lemma no_duplicates_invariant_witness :
  no_duplicates (<["e" := [Reentrant.mutator; Reentrant.late]]> ∅).
Proof.
  refine (proj2 (proj2 (proj2 no_duplicates_invariant))
            Reentrant.body 1 "e" Reentrant.before _ _ _ _).
  - unfold Reentrant.before.
    repeat apply no_duplicates_add. apply no_duplicates_empty.
  - vm_compute. reflexivity.
Defined.

Lemma run_log_only dispatch acts (m : gmap string (list handle)) :
  (∀ a, a ∈ acts → ∃ msg, a = ActLog msg) →
  run dispatch acts m = Some (m, Logged <$> lines_of acts).
Proof.
  induction acts as [| a acts IH]; intros Hlog; [done |].
  destruct (Hlog a) as [msg ->]; [by left |]. simpl.
  rewrite IH; [done |]. intros a Ha. apply Hlog. by right.
Qed.

Lemma forEach_log_only dispatch body snapshot (m : gmap string (list handle)) :
  log_only body →
  forEach (λ h, run dispatch (body h)) snapshot m
  = Some (m, (λ h, Invoked h (Logged <$> lines_of (body h))) <$> snapshot).
Proof.
  intros Hlog. induction snapshot as [| h rest IH]; [done |]. simpl.
  rewrite run_log_only by apply Hlog. by rewrite IH.
Qed.

(** X10.  When the callbacks only write to the console, a dispatch returns
    with the registry exactly as it was, having called the callbacks of the
    set in order, and the console shows the lines of each callback in that
    order. *)
Theorem dispatchEvent_log_only body fuel E (m : gmap string (list handle)) :
  log_only body →
  ∃ tr, dispatchEvent body (S fuel) E m = Some (m, tr)
        ∧ tr = (λ h, Invoked h (Logged <$> lines_of (body h))) <$> handles m E
        ∧ console tr = flat_map (λ h, lines_of (body h)) (handles m E).
Proof.
  intros Hlog. eexists. split_and!; [| reflexivity |].
  - simpl. unfold handles. destruct (m !! E) as [s |]; simpl; [| done].
    by apply forEach_log_only.
  - unfold console. induction (handles m E) as [| h l IH]; [done |].
    simpl. f_equal; [apply console_logged | exact IH].
Qed.

Lemma sample_log_only : log_only Sample.body.
Proof.
  intros h a. unfold Sample.body.
  repeat (destruct h as [| h];
          [intros [-> | ?%not_elem_of_nil]%elem_of_cons; [by eexists | done] |]).
  by intros ?%not_elem_of_nil.
Qed.

Lemma dispatchEvent_log_only_witness :
  ∃ tr, dispatchEvent Sample.body 1 "world" Sample.registered
          = Some (Sample.registered, tr)
        ∧ console tr = ["world"; "world again!"].
Proof.
  destruct (dispatchEvent_log_only Sample.body 0 "world" Sample.registered
              sample_log_only) as (tr & Hd & _ & Hc).
  exists tr. split; [exact Hd |]. rewrite Hc. vm_compute. reflexivity.
Defined.

(** X11.  A listener whose first statement dispatches the event it listens
    to, and that is first in the set of that event, makes the dispatch
    exhaust every call stack: no bound on the depth lets it return. *)
Theorem self_dispatch_never_returns body E h rest others
    (m : gmap string (list handle)) :
  m !! E = Some (h :: others) →
  body h = ActDispatch E :: rest →
  ∀ fuel, dispatchEvent body fuel E m = None.
Proof.
  intros Hs Hbody fuel. induction fuel as [| fuel IH]; [done |].
  simpl. rewrite Hs. simpl. rewrite Hbody. simpl. by rewrite IH.
Qed.

Lemma self_dispatch_never_returns_witness :
  dispatchEvent Loop.body 1000 "e" Loop.before = None.
Proof.
  refine (self_dispatch_never_returns Loop.body "e" Loop.again
            [ActLog "unreached"] [] Loop.before _ _ 1000).
  - vm_compute. reflexivity.
  - reflexivity.
Defined.

(** ** A callback that nobody registers again *)

Lemma run_keeps_unregistered dispatch acts E h :
  (∀ E0 (m m' : gmap string (list handle)) tr,
     dispatch E0 m = Some (m', tr) → h ∉ handles m E → h ∉ handles m' E) →
  ActAdd E h ∉ acts →
  ∀ m m' tr, run dispatch acts m = Some (m', tr) →
             h ∉ handles m E → h ∉ handles m' E.
Proof.
  intros Hd. induction acts as [| a acts IH]; intros Hno m m' tr; simpl.
  - by intros [= <- <-].
  - apply not_elem_of_cons in Hno as [Ha Hno].
    destruct a as [msg | E' h' | E' h' | E'].
    + destruct (run dispatch acts m) as [[m1 later] |] eqn:Hr; [| done].
      intros [= <- <-]. by eapply IH.
    + intros Hr Hm. eapply IH; [done | done |].
      destruct (decide (E' = E)) as [-> | Hne].
      * rewrite handles_addEventListener, set_add_elem.
        intros [-> | ?]; [by apply Ha | done].
      * by rewrite handles_addEventListener_ne.
    + intros Hr Hm. eapply IH; [done | done |].
      destruct (decide (E' = E)) as [-> | Hne].
      * rewrite handles_removeEventListener, set_delete_elem. tauto.
      * by rewrite handles_removeEventListener_ne.
    + destruct (dispatch E' m) as [[m1 during] |] eqn:Hdi; [| done].
      destruct (run dispatch acts m1) as [[m2 later] |] eqn:Hr; [| done].
      intros [= <- <-] Hm. eapply IH; [done | done |]. by eapply Hd.
Qed.

Lemma dispatchEvent_keeps_unregistered body E h :
  (∀ h', ActAdd E h ∉ body h') →
  ∀ fuel E0 (m m' : gmap string (list handle)) tr,
    dispatchEvent body fuel E0 m = Some (m', tr) →
    h ∉ handles m E → h ∉ handles m' E.
Proof.
  intros Hno. induction fuel as [| fuel IH]; intros E0 m m' tr; [done |].
  simpl. destruct (m !! E0) as [s |].
  - apply (forEach_preserves (λ m, h ∉ handles m E)).
    intros h'. by apply run_keeps_unregistered.
  - by intros [= <- <-].
Qed.

Lemma run_unregisters dispatch acts E h :
  (∀ E0 (m m' : gmap string (list handle)) tr,
     dispatch E0 m = Some (m', tr) → h ∉ handles m E → h ∉ handles m' E) →
  ActAdd E h ∉ acts →
  ActRemove E h ∈ acts →
  ∀ m m' tr, run dispatch acts m = Some (m', tr) → h ∉ handles m' E.
Proof.
  intros Hd. induction acts as [| a acts IH]; intros Hno Hrem m m' tr.
  - by apply not_elem_of_nil in Hrem.
  - apply not_elem_of_cons in Hno as [Ha Hno].
    apply elem_of_cons in Hrem as [<- | Hrem].
    + simpl. intros Hr.
      eapply (run_keeps_unregistered dispatch acts E h); [done | done | done |].
      rewrite handles_removeEventListener, set_delete_elem. tauto.
    + simpl. destruct a as [msg | E' h' | E' h' | E'].
      * destruct (run dispatch acts m) as [[m1 later] |] eqn:Hr; [| done].
        intros [= <- <-]. by eapply IH.
      * by apply IH.
      * by apply IH.
      * destruct (dispatch E' m) as [[m1 during] |] eqn:Hdi; [| done].
        destruct (run dispatch acts m1) as [[m2 later] |] eqn:Hr; [| done].
        intros [= <- <-]. by eapply IH.
Qed.

Lemma forEach_unregisters dispatch body snapshot E h :
  (∀ E0 (m m' : gmap string (list handle)) tr,
     dispatch E0 m = Some (m', tr) → h ∉ handles m E → h ∉ handles m' E) →
  (∀ h', ActAdd E h ∉ body h') →
  ActRemove E h ∈ body h →
  h ∈ snapshot →
  ∀ m m' tr, forEach (λ h', run dispatch (body h')) snapshot m = Some (m', tr) →
             h ∉ handles m' E.
Proof.
  intros Hd Hno Hrem. induction snapshot as [| h0 rest IH]; intros Hin m m' tr.
  - by apply not_elem_of_nil in Hin.
  - simpl. destruct (run dispatch (body h0) m) as [[m1 inside] |] eqn:Hcall; [| done].
    destruct (forEach _ rest m1) as [[m2 later] |] eqn:Hrest; [| done].
    intros [= <- <-].
    destruct (decide (h ∈ rest)) as [Hlater | Hlater]; [by eapply IH |].
    apply elem_of_cons in Hin as [<- | ?]; [| done].
    eapply (forEach_preserves (λ m, h ∉ handles m E)); [| done |].
    + intros h' ? ? ?. by apply run_keeps_unregistered.
    + by eapply run_unregisters.
Qed.

Lemma times_absent (l : list handle) h : h ∉ l → times h l = 0.
Proof.
  intros Hin. unfold times. induction l as [| y l IH]; [done |].
  apply not_elem_of_cons in Hin as [Hne Hin].
  rewrite filter_cons_False by congruence. by apply IH.
Qed.

(** X12.  With callbacks that do not dispatch: a listener that removes
    itself from the event it listens to, and that no callback registers for
    that event again, runs exactly once.  The dispatch returns, the
    listener occurs once among all its invocations, it is not registered
    for the event in the registry the dispatch returns, and a second
    dispatch of the event returns without invoking it. *)
Theorem self_removing_listener body E h (m : gmap string (list handle)) :
  dispatch_free body →
  no_duplicates m →
  (∀ h', ActAdd E h ∉ body h') →
  ActRemove E h ∈ body h →
  h ∈ handles m E →
  ∀ fuel, ∃ m' tr,
    dispatchEvent body (S fuel) E m = Some (m', tr)
    ∧ tr = trace_of_calls body (handles m E)
    ∧ times h (invocations tr) = 1
    ∧ (h ∉ handles m' E)
    ∧ ∃ m'' tr',
        dispatchEvent body (S fuel) E m' = Some (m'', tr')
        ∧ times h (invocations tr') = 0.
Proof.
  intros Hfree Hnd Hno Hrem Hin fuel.
  pose proof (dispatchEvent_dispatch_free_result body fuel E m Hfree) as Hd.
  assert (Hgone : h ∉ handles (effects_in_turn body (handles m E) m) E).
  { revert Hd. simpl. unfold handles in Hin |- *.
    destruct (m !! E) as [s |] eqn:Hs; simpl in Hin |- *.
    - intros Hd. eapply forEach_unregisters; try done.
      by apply dispatchEvent_keeps_unregistered.
    - by apply not_elem_of_nil in Hin. }
  eexists _, _. split_and!; [exact Hd | done | | exact Hgone |].
  - rewrite invocations_trace_of_calls, times_NoDup.
    + by rewrite bool_decide_eq_true_2.
    + unfold handles. destruct (m !! E) as [s |] eqn:Hs; simpl.
      * by apply (Hnd E).
      * apply NoDup_nil_2.
  - eexists _, _. split; [by apply dispatchEvent_dispatch_free_result |].
    rewrite invocations_trace_of_calls. by apply times_absent.
Qed.

Lemma once_dispatch_free : dispatch_free Once.body.
Proof.
  intros h E. unfold Once.body.
  do 20 (destruct h as [| h]; [apply not_elem_of_nil |]).
  destruct h as [| [| h]].
  - intros Hin. repeat (apply elem_of_cons in Hin as [Heq | Hin];
                       [discriminate Heq |]).
    by apply not_elem_of_nil in Hin.
  - intros Hin. repeat (apply elem_of_cons in Hin as [Heq | Hin];
                       [discriminate Heq |]).
    by apply not_elem_of_nil in Hin.
  - apply not_elem_of_nil.
Qed.

Lemma self_removing_listener_witness :
  ∃ m' tr,
    dispatchEvent Once.body 1 "e" Once.before = Some (m', tr)
    ∧ tr = [Invoked Once.once [Logged "once"]; Invoked Once.stay [Logged "stay"]]
    ∧ handles m' "e" = [Once.stay]
    ∧ times Once.once (invocations tr) = 1
    ∧ ∃ m'' tr',
        dispatchEvent Once.body 1 "e" m' = Some (m'', tr')
        ∧ times Once.once (invocations tr') = 0.
Proof.
  assert (Hnd : no_duplicates Once.before).
  { unfold Once.before. repeat apply no_duplicates_add. apply no_duplicates_empty. }
  assert (Hno : ∀ h', ActAdd "e" Once.once ∉ Once.body h').
  { intros h'. unfold Once.body.
    do 20 (destruct h' as [| h']; [apply not_elem_of_nil |]).
    destruct h' as [| [| h']].
    - intros Hin. repeat (apply elem_of_cons in Hin as [Heq | Hin];
                         [discriminate Heq |]).
      by apply not_elem_of_nil in Hin.
    - intros Hin. repeat (apply elem_of_cons in Hin as [Heq | Hin];
                         [discriminate Heq |]).
      by apply not_elem_of_nil in Hin.
    - apply not_elem_of_nil. }
  assert (Hrem : ActRemove "e" Once.once ∈ Once.body Once.once).
  { right. left. }
  assert (Hin : Once.once ∈ handles Once.before "e").
  { vm_compute. left. }
  destruct (self_removing_listener Once.body "e" Once.once Once.before
              once_dispatch_free Hnd Hno Hrem Hin 0)
    as (m' & tr & Hd & Htr & Hone & _ & Hlater).
  exists m', tr.
  assert (Hm' : m' = <["e" := [Once.stay]]> ∅).
  { assert (Hc : dispatchEvent Once.body 1 "e" Once.before
                 = Some (<["e" := [Once.stay]]> ∅,
                         [Invoked Once.once [Logged "once"];
                          Invoked Once.stay [Logged "stay"]]))
      by (vm_compute; reflexivity).
    rewrite Hc in Hd. by injection Hd as <- _. }
  split_and!; [exact Hd | | | exact Hone | exact Hlater].
  - rewrite Htr. vm_compute. reflexivity.
  - rewrite Hm'. vm_compute. reflexivity.
Defined.
